(** * u_cfg_app_platform_specific.h (nRF53): the header and the C preprocessor

    The header [port/platform/nordic/nrf53/cfg/u_cfg_app_platform_specific.h]
    consists of an include guard around one [#include "u_runner.h"].  Its
    meaning is what the C preprocessor does with it, so the embedding below
    is a small model of the preprocessor: a file is a list of directive
    lines, the preprocessor state is the set of defined macros together with
    the emitted output, and [#include] recurses into the included file with
    the include depth bounded (as GCC's [#include nested depth ... exceeds
    maximum of 200]).  Comments and blank lines are removed in translation
    phase 3 and carry no tokens, so they do not appear as lines. *)

From Stdlib Require Import String List Bool Arith Lia.
Import ListNotations.
Open Scope string_scope.

(** ** Source lines *)

Inductive line : Type :=
| LIfndef (m : string)      (* #ifndef m *)
| LIfdef (m : string)       (* #ifdef m *)
| LEndif                    (* #endif *)
| LDefine (m : string)      (* #define m *)
| LUndef (m : string)       (* #undef m *)
| LInclude (f : string)     (* #include "f" *)
| LText (t : string).       (* a line of ordinary tokens *)

(** An include-path environment: the contents a quoted include name resolves
    to, or [None] when the file cannot be located. *)
Definition file_env := string -> option (list line).

(** ** Preprocessor state *)

(** What a processed (active) line emits, tagged with the file it comes from. *)
Inductive event : Type :=
| EDefine (m : string)
| EUndef (m : string)
| EInclude (f : string)
| EText (t : string).

Record pp_state : Type := mkState {
  macros : list string;
  out : list (string * event)
}.

Inductive pp_error : Type :=
| ENotFound (f : string)        (* fatal error: f: No such file or directory *)
| ETooDeep (f : string)         (* #include nested depth exceeds maximum *)
| EUnbalancedEndif (f : string) (* #endif without #if *)
| EUnterminated (f : string).   (* unterminated conditional directive *)

Inductive pp_result : Type :=
| Ok (st : pp_state)
| Err (e : pp_error).

Definition defined (m : string) (st : pp_state) : bool :=
  existsb (String.eqb m) (macros st).

Definition emit (cur : string) (e : event) (st : pp_state) : pp_state :=
  mkState (macros st) (out st ++ [(cur, e)]).

Definition define (cur m : string) (st : pp_state) : pp_state :=
  mkState (m :: macros st) (out st ++ [(cur, EDefine m)]).

Definition undef (cur m : string) (st : pp_state) : pp_state :=
  mkState (filter (fun x => negb (String.eqb x m)) (macros st))
          (out st ++ [(cur, EUndef m)]).

(** The conditional stack: [true] on top when the current group is active. *)
Definition active (cs : list bool) : bool :=
  match cs with [] => true | b :: _ => b end.

(** ** Processing the lines of one file

    [inc] processes an included file (one level deeper); [cur] is the name
    of the file whose lines are processed. *)
Fixpoint pp_lines (inc : string -> pp_state -> pp_result) (cur : string)
    (ls : list line) (cs : list bool) (st : pp_state) : pp_result :=
  match ls with
  | [] => match cs with [] => Ok st | _ :: _ => Err (EUnterminated cur) end
  | l :: rest =>
      if active cs then
        match l with
        | LIfndef m => pp_lines inc cur rest (negb (defined m st) :: cs) st
        | LIfdef m => pp_lines inc cur rest (defined m st :: cs) st
        | LEndif =>
            match cs with
            | [] => Err (EUnbalancedEndif cur)
            | _ :: cs' => pp_lines inc cur rest cs' st
            end
        | LDefine m => pp_lines inc cur rest cs (define cur m st)
        | LUndef m => pp_lines inc cur rest cs (undef cur m st)
        | LInclude f =>
            match inc f (emit cur (EInclude f) st) with
            | Ok st' => pp_lines inc cur rest cs st'
            | Err e => Err e
            end
        | LText t => pp_lines inc cur rest cs (emit cur (EText t) st)
        end
      else
        match l with
        | LIfndef _ | LIfdef _ => pp_lines inc cur rest (false :: cs) st
        | LEndif =>
            match cs with
            | [] => Err (EUnbalancedEndif cur)
            | _ :: cs' => pp_lines inc cur rest cs' st
            end
        | _ => pp_lines inc cur rest cs st
        end
  end.

(** Opening and processing a file; [depth] is the number of nesting levels
    still allowed. *)
Fixpoint pp_file (env : file_env) (depth : nat) (name : string)
    (st : pp_state) : pp_result :=
  match depth with
  | O => Err (ETooDeep name)
  | S d =>
      match env name with
      | None => Err (ENotFound name)
      | Some ls => pp_lines (pp_file env d) name ls [] st
      end
  end.

Definition max_include_depth : nat := 200.

Definition empty_state : pp_state := mkState [] [].

(** Preprocessing a translation unit whose main file is [main]. *)
Definition preprocess (env : file_env) (main : string) : pp_result :=
  pp_file env max_include_depth main empty_state.

(** ** The header *)

Definition header_path : string :=
  "port/platform/nordic/nrf53/cfg/u_cfg_app_platform_specific.h".

Definition header_guard : string := "_U_CFG_APP_PLATFORM_SPECIFIC_H_".

Definition u_runner_h : string := "u_runner.h".

(** Lines 17, 18, 21 and 31 of the header; the rest are comments and blank
    lines. *)
Definition u_cfg_app_platform_specific_h : list line :=
  [ LIfndef header_guard;
    LDefine header_guard;
    LInclude u_runner_h;
    LEndif ].

(** The source tree: where the header lives in the repository. *)
Definition src_tree : file_env :=
  fun p => if String.eqb p header_path then Some u_cfg_app_platform_specific_h
           else None.

(** The state in which [u_runner.h] is entered by the header. *)
Definition after_guard (st : pp_state) : pp_state :=
  emit header_path (EInclude u_runner_h) (define header_path header_guard st).

(** The header's own events in an output. *)
Definition header_content (o : list (string * event)) : list (string * event) :=
  filter (fun p => String.eqb (fst p) header_path) o.

Definition is_header_include (p : string * event) : bool :=
  match snd p with EInclude f => String.eqb f header_path | _ => false end.

Definition header_included (o : list (string * event)) : bool :=
  existsb is_header_include o.

(** What a run emits after the state it started from. *)
Definition new_output (st : pp_state) (r : pp_result)
    : list (string * event) + pp_error :=
  match r with
  | Ok st' => inl (skipn (length (out st)) (out st'))
  | Err e => inr e
  end.

(** ** Basic facts *)

Lemma header_path_neq_u_runner : header_path <> u_runner_h.
Proof. discriminate. Qed.

Lemma defined_after_guard (st : pp_state) :
  defined header_guard (after_guard st) = true.
Proof. reflexivity. Qed.

(** Processing the header's lines, with any include function. *)
Lemma header_lines_eq (inc : string -> pp_state -> pp_result) (st : pp_state) :
  pp_lines inc header_path u_cfg_app_platform_specific_h [] st =
  if defined header_guard st then Ok st
  else match inc u_runner_h (after_guard st) with
       | Ok st' => Ok st'
       | Err e => Err e
       end.
Proof.
  unfold u_cfg_app_platform_specific_h; simpl.
  destruct (defined header_guard st); simpl; [reflexivity|].
  destruct (inc u_runner_h _); reflexivity.
Qed.

Lemma pp_header_eq (env : file_env) (d : nat) (st : pp_state) :
  env header_path = Some u_cfg_app_platform_specific_h ->
  pp_file env (S d) header_path st =
  if defined header_guard st then Ok st
  else pp_file env d u_runner_h (after_guard st).
Proof.
  intros Henv; simpl; rewrite Henv, header_lines_eq.
  destruct (defined header_guard st); [reflexivity|].
  destruct (pp_file env d u_runner_h _); reflexivity.
Qed.

(** ** Output already emitted does not influence processing *)

Definition prefix (o : list (string * event)) (st : pp_state) : pp_state :=
  mkState (macros st) (o ++ out st).

Definition shift (o : list (string * event)) (r : pp_result) : pp_result :=
  match r with Ok s => Ok (prefix o s) | Err e => Err e end.

Lemma defined_prefix o m st : defined m (prefix o st) = defined m st.
Proof. reflexivity. Qed.

Lemma emit_prefix o cur e st : emit cur e (prefix o st) = prefix o (emit cur e st).
Proof. unfold emit, prefix; simpl. now rewrite app_assoc. Qed.

Lemma define_prefix o cur m st : define cur m (prefix o st) = prefix o (define cur m st).
Proof. unfold define, prefix; simpl. now rewrite app_assoc. Qed.

Lemma undef_prefix o cur m st : undef cur m (prefix o st) = prefix o (undef cur m st).
Proof. unfold undef, prefix; simpl. now rewrite app_assoc. Qed.

Lemma pp_lines_prefix (inc : string -> pp_state -> pp_result) cur o :
  (forall f st, inc f (prefix o st) = shift o (inc f st)) ->
  forall ls cs st,
    pp_lines inc cur ls cs (prefix o st) = shift o (pp_lines inc cur ls cs st).
Proof.
  intros Hinc ls; induction ls as [|l rest IH]; intros cs st.
  - destruct cs; reflexivity.
  - simpl; destruct (active cs).
    + destruct l; rewrite ?defined_prefix, ?define_prefix, ?undef_prefix,
        ?emit_prefix; try apply IH.
      * destruct cs; [reflexivity | apply IH].
      * rewrite Hinc. destruct (inc f (emit cur (EInclude f) st)); simpl;
          [apply IH | reflexivity].
    + destruct l; try apply IH. destruct cs; [reflexivity | apply IH].
Qed.

Lemma pp_file_prefix env d :
  forall o f st, pp_file env d f (prefix o st) = shift o (pp_file env d f st).
Proof.
  induction d as [|d IH]; intros o f st; simpl; [reflexivity|].
  destruct (env f); [|reflexivity].
  apply pp_lines_prefix. intros; apply IH.
Qed.

(** ** The guard stays defined while nobody undefines it *)

Definition no_undef (m : string) (ls : list line) : Prop := ~ In (LUndef m) ls.

Lemma defined_emit m cur e st : defined m (emit cur e st) = defined m st.
Proof. reflexivity. Qed.

Lemma defined_define m cur m' st :
  defined m st = true -> defined m (define cur m' st) = true.
Proof.
  unfold defined; simpl; intros H. now rewrite H, orb_true_r.
Qed.

Lemma defined_undef m cur m' st :
  m <> m' -> defined m st = true -> defined m (undef cur m' st) = true.
Proof.
  unfold defined, undef; simpl; intros Hne H.
  apply existsb_exists in H as [x [Hx Heq]].
  apply String.eqb_eq in Heq; subst x.
  apply existsb_exists; exists m; split; [|apply String.eqb_refl].
  apply filter_In; split; [assumption|].
  apply negb_true_iff, String.eqb_neq; assumption.
Qed.

Lemma pp_lines_keeps_defined (inc : string -> pp_state -> pp_result) cur m :
  (forall f st st', defined m st = true -> inc f st = Ok st' ->
     defined m st' = true) ->
  forall ls cs st st', no_undef m ls -> defined m st = true ->
    pp_lines inc cur ls cs st = Ok st' -> defined m st' = true.
Proof.
  intros Hinc ls; induction ls as [|l rest IH]; intros cs st st' Hno Hdef Hrun.
  - destruct cs; simpl in Hrun; [congruence | discriminate].
  - assert (Hno' : no_undef m rest) by (intro Hi; apply Hno; now right).
    simpl in Hrun; destruct (active cs).
    + destruct l.
      * eapply IH; eassumption.
      * eapply IH; eassumption.
      * destruct cs; [discriminate | eapply IH; eassumption].
      * eapply IH; [eassumption | apply defined_define, Hdef | eassumption].
      * eapply IH; [eassumption | | eassumption].
        apply defined_undef; [|assumption].
        intro; subst; apply Hno; now left.
      * destruct (inc f (emit cur (EInclude f) st)) eqn:Ei; [|discriminate].
        eapply IH; [eassumption | | eassumption].
        eapply Hinc; [|exact Ei]. rewrite defined_emit; assumption.
      * eapply IH; [eassumption | | eassumption]. rewrite defined_emit; assumption.
    + destruct l; try (eapply IH; eassumption).
      destruct cs; [discriminate | eapply IH; eassumption].
Qed.

Lemma pp_file_keeps_defined env m :
  (forall f ls, env f = Some ls -> no_undef m ls) ->
  forall d f st st', defined m st = true -> pp_file env d f st = Ok st' ->
    defined m st' = true.
Proof.
  intros Henv d; induction d as [|d IH]; intros f st st' Hdef Hrun;
    simpl in Hrun; [discriminate|].
  destruct (env f) as [ls|] eqn:Ef; [|discriminate].
  eapply pp_lines_keeps_defined; [exact IH | eapply Henv; eassumption | eassumption | eassumption].
Qed.

(** ** Re-entrant inclusion behaves as an empty file *)

(** The same environment, with the header resolved to an empty file. *)
Definition without_header (env : file_env) : file_env :=
  fun f => if String.eqb f header_path then Some [] else env f.

Lemma pp_lines_sim (inc1 inc2 : string -> pp_state -> pp_result) cur m :
  (forall f st, defined m st = true -> inc1 f st = inc2 f st) ->
  (forall f st st', defined m st = true -> inc1 f st = Ok st' ->
     defined m st' = true) ->
  forall ls cs st, no_undef m ls -> defined m st = true ->
    pp_lines inc1 cur ls cs st = pp_lines inc2 cur ls cs st.
Proof.
  intros Hsim Hkeep ls; induction ls as [|l rest IH]; intros cs st Hno Hdef;
    [reflexivity|].
  assert (Hno' : no_undef m rest) by (intro Hi; apply Hno; now right).
  simpl; destruct (active cs).
  - destruct l.
    + apply IH; assumption.
    + apply IH; assumption.
    + destruct cs; [reflexivity | apply IH; assumption].
    + apply IH; [assumption | apply defined_define, Hdef].
    + apply IH; [assumption|]. apply defined_undef; [|assumption].
      intro; subst; apply Hno; now left.
    + rewrite <- Hsim by (rewrite defined_emit; assumption).
      destruct (inc1 f (emit cur (EInclude f) st)) eqn:Ei; [|reflexivity].
      apply IH; [assumption|]. eapply Hkeep; [|exact Ei].
      rewrite defined_emit; assumption.
    + apply IH; [assumption|]. rewrite defined_emit; assumption.
  - destruct l; try (apply IH; assumption).
    destruct cs; [reflexivity | apply IH; assumption].
Qed.

Lemma header_no_undef m : no_undef m u_cfg_app_platform_specific_h.
Proof. unfold no_undef, u_cfg_app_platform_specific_h; simpl; intuition discriminate. Qed.

Lemma pp_file_without_header env :
  env header_path = Some u_cfg_app_platform_specific_h ->
  (forall f ls, f <> header_path -> env f = Some ls -> no_undef header_guard ls) ->
  forall d f st, defined header_guard st = true ->
    pp_file env d f st = pp_file (without_header env) d f st.
Proof.
  intros Hh Hno.
  assert (Hall : forall f ls, env f = Some ls -> no_undef header_guard ls).
  { intros f ls Ef. destruct (String.eqb_spec f header_path) as [->|Hne].
    - rewrite Hh in Ef; injection Ef as <-; apply header_no_undef.
    - eapply Hno; eassumption. }
  induction d as [|d IH]; intros f st Hdef; [reflexivity|].
  destruct (String.eqb_spec f header_path) as [->|Hne].
  - rewrite pp_header_eq by exact Hh. rewrite Hdef.
    simpl; unfold without_header; simpl; reflexivity.
  - simpl; unfold without_header at 1.
    rewrite (proj2 (String.eqb_neq _ _) Hne).
    destruct (env f) as [ls|] eqn:Ef; [|reflexivity].
    apply pp_lines_sim with (m := header_guard).
    + exact IH.
    + apply pp_file_keeps_defined; exact Hall.
    + eapply Hall; eassumption.
    + assumption.
Qed.

(** ** The header's content is emitted at most once *)

Definition header_events : list (string * event) :=
  [(header_path, EDefine header_guard); (header_path, EInclude u_runner_h)].

(** Guard defined, content emitted once and the header included, or none of
    the three. *)
Definition once_inv (st : pp_state) : Prop :=
  (defined header_guard st = true /\ header_content (out st) = header_events /\
   header_included (out st) = true) \/
  (defined header_guard st = false /\ header_content (out st) = [] /\
   header_included (out st) = false).

Lemma header_content_snoc o cur e :
  cur <> header_path -> header_content (o ++ [(cur, e)]) = header_content o.
Proof.
  intros Hne; unfold header_content; rewrite filter_app; simpl.
  rewrite (proj2 (String.eqb_neq _ _) Hne), app_nil_r; reflexivity.
Qed.

Lemma header_included_snoc o p :
  header_included (o ++ [p]) = header_included o || is_header_include p.
Proof.
  unfold header_included; rewrite existsb_app; simpl; now rewrite orb_false_r.
Qed.

Lemma existsb_eqb_filter_neq m m' l :
  m <> m' ->
  existsb (String.eqb m) (filter (fun x => negb (String.eqb x m')) l) =
  existsb (String.eqb m) l.
Proof.
  intros Hne; induction l as [|x l IH]; [reflexivity|]; simpl.
  destruct (String.eqb_spec x m') as [->|Hx]; simpl.
  - rewrite (proj2 (String.eqb_neq _ _) Hne); exact IH.
  - now rewrite IH.
Qed.

Lemma once_inv_emit cur e st :
  cur <> header_path -> is_header_include (cur, e) = false ->
  once_inv st -> once_inv (emit cur e st).
Proof.
  intros Hc He Hi; unfold once_inv, emit; simpl.
  rewrite header_content_snoc, header_included_snoc, He, orb_false_r by exact Hc.
  exact Hi.
Qed.

Lemma once_inv_define cur m st :
  cur <> header_path -> m <> header_guard ->
  once_inv st -> once_inv (define cur m st).
Proof.
  intros Hc Hm Hi; unfold once_inv, define, defined; cbn [macros out existsb].
  rewrite header_content_snoc, header_included_snoc by exact Hc; cbn [is_header_include snd].
  rewrite orb_false_r.
  replace (String.eqb header_guard m) with false
    by (symmetry; apply String.eqb_neq; congruence).
  exact Hi.
Qed.

Lemma once_inv_undef cur m st :
  cur <> header_path -> m <> header_guard ->
  once_inv st -> once_inv (undef cur m st).
Proof.
  intros Hc Hm Hi; unfold once_inv, undef, defined; cbn [macros out].
  rewrite header_content_snoc, header_included_snoc by exact Hc; cbn [is_header_include snd].
  rewrite orb_false_r, existsb_eqb_filter_neq by congruence.
  exact Hi.
Qed.

Definition guard_free (ls : list line) : Prop :=
  ~ In (LDefine header_guard) ls /\ ~ In (LUndef header_guard) ls.

Lemma pp_lines_once_inv (inc : string -> pp_state -> pp_result) cur :
  cur <> header_path ->
  (forall g st st', once_inv st -> inc g (emit cur (EInclude g) st) = Ok st' ->
     once_inv st') ->
  forall ls cs st st', guard_free ls -> once_inv st ->
    pp_lines inc cur ls cs st = Ok st' -> once_inv st'.
Proof.
  intros Hc Hinc ls; induction ls as [|l rest IH];
    intros cs st st' [Hd Hu] Hi Hrun.
  - destruct cs; simpl in Hrun; [congruence | discriminate].
  - assert (Hg : guard_free rest)
      by (split; intro Hin; [apply Hd | apply Hu]; now right).
    simpl in Hrun; destruct (active cs).
    + destruct l.
      * eapply IH; eassumption.
      * eapply IH; eassumption.
      * destruct cs; [discriminate | eapply IH; eassumption].
      * eapply IH; [eassumption | | eassumption].
        apply once_inv_define; [assumption | | assumption].
        intro; subst; apply Hd; now left.
      * eapply IH; [eassumption | | eassumption].
        apply once_inv_undef; [assumption | | assumption].
        intro; subst; apply Hu; now left.
      * destruct (inc f (emit cur (EInclude f) st)) eqn:Ei; [|discriminate].
        eapply IH; [eassumption | | eassumption].
        eapply Hinc; eassumption.
      * eapply IH; [eassumption | | eassumption].
        apply once_inv_emit; [assumption | reflexivity | assumption].
    + destruct l; try (eapply IH; eassumption).
      destruct cs; [discriminate | eapply IH; eassumption].
Qed.

Section IncludeOnce.

Variable env : file_env.
Hypothesis Hheader : env header_path = Some u_cfg_app_platform_specific_h.
Hypothesis Hothers :
  forall f ls, f <> header_path -> env f = Some ls -> guard_free ls.

Lemma pp_file_once_inv d :
  (forall f st st', f <> header_path -> once_inv st ->
     pp_file env d f st = Ok st' -> once_inv st') /\
  (forall cur st st', cur <> header_path -> once_inv st ->
     pp_file env d header_path (emit cur (EInclude header_path) st) = Ok st' ->
     once_inv st').
Proof.
  induction d as [|d [IHf IHh]]; [split; intros; discriminate|]. split.
  - intros f st st' Hf Hi Hrun. simpl in Hrun.
    destruct (env f) as [ls|] eqn:Ef; [|discriminate].
    eapply pp_lines_once_inv; [exact Hf | | eapply Hothers; eassumption
                              | exact Hi | exact Hrun].
    intros g s s' Hs Hg.
    destruct (String.eqb_spec g header_path) as [->|Hne].
    + eapply IHh; eassumption.
    + eapply IHf; [exact Hne | | exact Hg].
      apply once_inv_emit; [assumption | | assumption].
      unfold is_header_include; simpl; apply String.eqb_neq; assumption.
  - intros cur st st' Hc Hi Hrun.
    rewrite pp_header_eq in Hrun by exact Hheader.
    rewrite defined_emit in Hrun.
    destruct Hi as [[Hd [Hcont Hinc]] | [Hd [Hcont Hinc]]]; rewrite Hd in Hrun.
    + injection Hrun as <-. left; unfold emit; simpl.
      rewrite header_content_snoc, header_included_snoc by exact Hc.
      cbn [is_header_include snd]; rewrite String.eqb_refl, orb_true_r; auto.
    + eapply (IHf u_runner_h); [apply not_eq_sym, header_path_neq_u_runner | | exact Hrun].
      left; split; [apply defined_after_guard|].
      unfold after_guard, emit, define; cbn [macros out].
      unfold header_content, header_included in *; split.
      * rewrite !filter_app, Hcont; cbn [filter fst].
        rewrite (proj2 (String.eqb_neq _ _) Hc), String.eqb_refl; reflexivity.
      * rewrite !existsb_app; cbn [existsb is_header_include snd].
        rewrite String.eqb_refl, !orb_true_r; reflexivity.
Qed.

End IncludeOnce.

(** ** Further helpers *)

Lemma prefix_split (st : pp_state) :
  st = prefix (out st) (mkState (macros st) []).
Proof. destruct st as [ms o]; unfold prefix; cbn [macros out]. now rewrite app_nil_r. Qed.

Lemma pp_file_out_grows env d f st st' :
  pp_file env d f st = Ok st' -> exists o, out st' = (out st ++ o)%list.
Proof.
  intros H.
  pose proof (pp_file_prefix env d (out st) f (mkState (macros st) [])) as E.
  rewrite <- prefix_split, H in E.
  destruct (pp_file env d f (mkState (macros st) [])) as [s|e];
    cbn [shift] in E; [|discriminate].
  injection E as ->. exists (out s). reflexivity.
Qed.

Lemma after_guard_prefix (st : pp_state) :
  after_guard st = prefix (out st) (after_guard (mkState (macros st) [])).
Proof.
  unfold after_guard, emit, define, prefix; cbn [macros out app].
  now rewrite <- app_assoc.
Qed.

Lemma new_output_shift (st : pp_state) (r : pp_result) :
  new_output st (shift (out st) r) =
  match r with Ok s => inl (out s) | Err e => inr e end.
Proof.
  destruct r as [s|e]; [|reflexivity]; unfold new_output, shift, prefix; cbn [out].
  rewrite skipn_app, skipn_all, Nat.sub_diag; reflexivity.
Qed.

Lemma defined_macros m st1 st2 :
  macros st1 = macros st2 -> defined m st1 = defined m st2.
Proof. unfold defined; now intros ->. Qed.

(** Environments given by a list of files. *)
Definition env_of (fs : list (string * list line)) : file_env :=
  fun f => option_map snd (find (fun p => String.eqb (fst p) f) fs).

Lemma env_of_in fs f ls : env_of fs f = Some ls -> In (f, ls) fs.
Proof.
  unfold env_of; destruct (find _ fs) as [[g l]|] eqn:E; cbn; [|discriminate].
  intros H; injection H as <-.
  pose proof (find_some _ _ E) as [Hin Heq]. cbn in Heq.
  apply String.eqb_eq in Heq; subst g. exact Hin.
Qed.

Definition touches_guard (l : line) : bool :=
  match l with
  | LDefine m | LUndef m => String.eqb m header_guard
  | _ => false
  end.

Definition undefs_guard (l : line) : bool :=
  match l with LUndef m => String.eqb m header_guard | _ => false end.

Lemma guard_free_of ls : existsb touches_guard ls = false -> guard_free ls.
Proof.
  intros H; split; intros Hin.
  - assert (existsb touches_guard ls = true) by
      (apply existsb_exists; exists (LDefine header_guard); split;
       [exact Hin | reflexivity]).
    congruence.
  - assert (existsb touches_guard ls = true) by
      (apply existsb_exists; exists (LUndef header_guard); split;
       [exact Hin | reflexivity]).
    congruence.
Qed.

Lemma no_undef_of ls : existsb undefs_guard ls = false -> no_undef header_guard ls.
Proof.
  intros H Hin.
  assert (existsb undefs_guard ls = true) by
    (apply existsb_exists; exists (LUndef header_guard); split;
     [exact Hin | reflexivity]).
  congruence.
Qed.

(** Decidable checks on a list of files, the header excepted. *)
Definition env_guard_free (fs : list (string * list line)) : bool :=
  forallb (fun p => String.eqb (fst p) header_path
                    || negb (existsb touches_guard (snd p))) fs.

Definition env_no_undef (fs : list (string * list line)) : bool :=
  forallb (fun p => String.eqb (fst p) header_path
                    || negb (existsb undefs_guard (snd p))) fs.

Lemma env_guard_free_spec fs :
  env_guard_free fs = true ->
  forall f ls, f <> header_path -> env_of fs f = Some ls -> guard_free ls.
Proof.
  intros H f ls Hf E; apply env_of_in in E.
  unfold env_guard_free in H; rewrite forallb_forall in H.
  specialize (H _ E); cbn [fst snd] in H.
  rewrite (proj2 (String.eqb_neq _ _) Hf) in H; cbn in H.
  apply guard_free_of, negb_true_iff, H.
Qed.

Lemma env_no_undef_spec fs :
  env_no_undef fs = true ->
  forall f ls, f <> header_path -> env_of fs f = Some ls -> no_undef header_guard ls.
Proof.
  intros H f ls Hf E; apply env_of_in in E.
  unfold env_no_undef in H; rewrite forallb_forall in H.
  specialize (H _ E); cbn [fst snd] in H.
  rewrite (proj2 (String.eqb_neq _ _) Hf) in H; cbn in H.
  apply no_undef_of, negb_true_iff, H.
Qed.

(** Sample translation units. *)
Definition main_c : string := "main.c".

Definition tu_files (main u_runner : list line) : list (string * list line) :=
  [(main_c, main); (header_path, u_cfg_app_platform_specific_h);
   (u_runner_h, u_runner)].

(** ** Nesting of conditionals *)

(** Whether the conditionals of [ls] are well nested, [k] of them being open
    already. *)
Fixpoint nest_ok (k : nat) (ls : list line) : bool :=
  match ls with
  | [] => Nat.eqb k 0
  | LIfndef _ :: rest | LIfdef _ :: rest => nest_ok (S k) rest
  | LEndif :: rest => match k with O => false | S k' => nest_ok k' rest end
  | _ :: rest => nest_ok k rest
  end.

Definition cond_error (cur : string) (e : pp_error) : Prop :=
  e = EUnterminated cur \/ e = EUnbalancedEndif cur.

(** An error of [pp_lines] comes from an include, or is a conditional error
    of the file itself whose lines are then badly nested. *)
Lemma pp_lines_error (inc : string -> pp_state -> pp_result) cur :
  forall ls cs st e, pp_lines inc cur ls cs st = Err e ->
    (exists f s, inc f s = Err e) \/
    (cond_error cur e /\ nest_ok (length cs) ls = false).
Proof.
  intros ls; induction ls as [|l rest IH]; intros cs st e H.
  - destruct cs as [|b cs]; cbn in H; [discriminate|].
    injection H as <-. right; split; [left; reflexivity | reflexivity].
  - cbn [pp_lines] in H; destruct (active cs).
    + destruct l; cbn [nest_ok].
      * apply (IH _ _ _ H).
      * apply (IH _ _ _ H).
      * destruct cs as [|b cs].
        -- injection H as <-. right; split; [right; reflexivity | reflexivity].
        -- apply (IH _ _ _ H).
      * apply (IH _ _ _ H).
      * apply (IH _ _ _ H).
      * destruct (inc f (emit cur (EInclude f) st)) eqn:Ei.
        -- apply (IH _ _ _ H).
        -- injection H as <-. left; eauto.
      * apply (IH _ _ _ H).
    + destruct l; cbn [nest_ok]; try apply (IH _ _ _ H).
      destruct cs as [|b cs].
      * injection H as <-. right; split; [right; reflexivity | reflexivity].
      * apply (IH _ _ _ H).
Qed.

(** A conditional error always names a located file whose conditionals are
    badly nested. *)
Lemma pp_file_cond_error env :
  forall d f st g e, pp_file env d f st = Err e -> cond_error g e ->
    exists ls, env g = Some ls /\ nest_ok 0 ls = false.
Proof.
  induction d as [|d IH]; intros f st g e H Hc; cbn in H.
  - injection H as <-. destruct Hc; discriminate.
  - destruct (env f) as [ls|] eqn:Ef.
    + apply pp_lines_error in H as [[f' [s Hs]] | [Hc' Hn]].
      * eapply IH; eassumption.
      * assert (g = f) as ->.
        { destruct Hc as [->| ->]; destruct Hc' as [Hx|Hx]; congruence. }
        exists ls; split; [exact Ef | exact Hn].
    + injection H as <-. destruct Hc; discriminate.
Qed.

(** ** Macro changes recorded in the output *)

(** Every change of the macro set is logged in the output, so the macros in
    force at any point of a run are those replayed from the output so far. *)
Definition replay_event (ms : list string) (p : string * event) : list string :=
  match snd p with
  | EDefine m => m :: ms
  | EUndef m => filter (fun x => negb (String.eqb x m)) ms
  | _ => ms
  end.

Definition replay (o : list (string * event)) : list string :=
  fold_left replay_event o [].

Definition replay_consistent (st : pp_state) : Prop :=
  macros st = replay (out st).

Lemma replay_snoc o p : replay (o ++ [p]) = replay_event (replay o) p.
Proof. unfold replay; now rewrite fold_left_app. Qed.

Lemma pp_lines_replay (inc : string -> pp_state -> pp_result) cur :
  (forall f st st', replay_consistent st -> inc f st = Ok st' ->
     replay_consistent st') ->
  forall ls cs st st', replay_consistent st ->
    pp_lines inc cur ls cs st = Ok st' -> replay_consistent st'.
Proof.
  unfold replay_consistent.
  intros Hinc ls; induction ls as [|l rest IH]; intros cs st st' Hr H.
  - destruct cs; cbn in H; [congruence | discriminate].
  - cbn [pp_lines] in H; destruct (active cs).
    + destruct l.
      * eapply IH; eassumption.
      * eapply IH; eassumption.
      * destruct cs; [discriminate | eapply IH; eassumption].
      * eapply IH; [|exact H]. unfold define; cbn [macros out].
        now rewrite replay_snoc, Hr.
      * eapply IH; [|exact H]. unfold undef; cbn [macros out].
        now rewrite replay_snoc, Hr.
      * destruct (inc f (emit cur (EInclude f) st)) eqn:Ei; [|discriminate].
        eapply IH; [|exact H]. eapply Hinc; [|exact Ei].
        unfold emit; cbn [macros out]. now rewrite replay_snoc, Hr.
      * eapply IH; [|exact H]. unfold emit; cbn [macros out].
        now rewrite replay_snoc, Hr.
    + destruct l; try (eapply IH; eassumption).
      destruct cs; [discriminate | eapply IH; eassumption].
Qed.

Lemma pp_file_replay env :
  forall d f st st', replay_consistent st -> pp_file env d f st = Ok st' ->
    replay_consistent st'.
Proof.
  induction d as [|d IH]; intros f st st' Hr H; cbn in H; [discriminate|].
  destruct (env f); [|discriminate].
  eapply pp_lines_replay; [exact IH | exact Hr | exact H].
Qed.

(** No [#undef] of the guard ever reaches the output. *)
Definition no_guard_undef_event (o : list (string * event)) : Prop :=
  forall cur, ~ In (cur, EUndef header_guard) o.

Lemma no_guard_undef_event_snoc o cur e :
  no_guard_undef_event o -> e <> EUndef header_guard ->
  no_guard_undef_event (o ++ [(cur, e)]).
Proof.
  intros Ho He c Hin. apply in_app_or in Hin as [Hin|[Hin|[]]].
  - exact (Ho c Hin).
  - injection Hin as _ Heq. apply He; exact Heq.
Qed.

Lemma pp_lines_no_guard_undef (inc : string -> pp_state -> pp_result) cur :
  (forall f st st', no_guard_undef_event (out st) -> inc f st = Ok st' ->
     no_guard_undef_event (out st')) ->
  forall ls cs st st', no_undef header_guard ls ->
    no_guard_undef_event (out st) ->
    pp_lines inc cur ls cs st = Ok st' -> no_guard_undef_event (out st').
Proof.
  intros Hinc ls; induction ls as [|l rest IH]; intros cs st st' Hno Ho H.
  - destruct cs; cbn in H; [injection H as <-; exact Ho | discriminate].
  - assert (Hno' : no_undef header_guard rest) by (intro Hi; apply Hno; now right).
    cbn [pp_lines] in H; destruct (active cs).
    + destruct l.
      * eapply IH; eassumption.
      * eapply IH; eassumption.
      * destruct cs; [discriminate | eapply IH; eassumption].
      * eapply IH; [exact Hno' | | exact H].
        apply no_guard_undef_event_snoc; [exact Ho | discriminate].
      * eapply IH; [exact Hno' | | exact H].
        apply no_guard_undef_event_snoc; [exact Ho|].
        intros Heq; injection Heq as ->; apply Hno; now left.
      * destruct (inc f (emit cur (EInclude f) st)) eqn:Ei; [|discriminate].
        eapply IH; [exact Hno' | | exact H]. eapply Hinc; [|exact Ei].
        apply no_guard_undef_event_snoc; [exact Ho | discriminate].
      * eapply IH; [exact Hno' | | exact H].
        apply no_guard_undef_event_snoc; [exact Ho | discriminate].
    + destruct l; try (eapply IH; eassumption).
      destruct cs; [discriminate | eapply IH; eassumption].
Qed.

Lemma pp_file_no_guard_undef env :
  (forall f ls, env f = Some ls -> no_undef header_guard ls) ->
  forall d f st st', no_guard_undef_event (out st) ->
    pp_file env d f st = Ok st' -> no_guard_undef_event (out st').
Proof.
  intros Henv d; induction d as [|d IH]; intros f st st' Ho H; cbn in H;
    [discriminate|].
  destruct (env f) as [ls|] eqn:Ef; [|discriminate].
  eapply pp_lines_no_guard_undef; [exact IH | eapply Henv; eassumption
                                   | exact Ho | exact H].
Qed.

Lemma replay_keeps_guard o :
  no_guard_undef_event o ->
  forall ms, existsb (String.eqb header_guard) ms = true ->
    existsb (String.eqb header_guard) (fold_left replay_event o ms) = true.
Proof.
  induction o as [|[c e] o IH]; intros Ho ms Hms; [exact Hms|].
  cbn [fold_left]. apply IH.
  - intros c' Hin; apply (Ho c'); now right.
  - unfold replay_event; cbn [snd]. destruct e as [m|m|f|t]; try exact Hms.
    + cbn [existsb]; now rewrite Hms, orb_true_r.
    + rewrite existsb_eqb_filter_neq; [exact Hms|].
      intros Heq; subst m; apply (Ho c); now left.
Qed.

Lemma replay_after_define o :
  no_guard_undef_event o -> In (header_path, EDefine header_guard) o ->
  forall ms, existsb (String.eqb header_guard) (fold_left replay_event o ms) = true.
Proof.
  induction o as [|p o IH]; intros Ho Hin ms; [destruct Hin|].
  cbn [fold_left]. destruct Hin as [->|Hin].
  - apply replay_keeps_guard; [intros c Hc; apply (Ho c); now right|].
    reflexivity.
  - apply IH; [intros c Hc; apply (Ho c); now right | exact Hin].
Qed.

(** * Claims *)

(** ** C4: the header's only effect *)

(** C4. Preprocessing the header changes the state only by defining the guard
    and textually including [u_runner.h]: if the guard is already defined the
    state is returned unchanged; otherwise the result is exactly that of
    processing [u_runner.h] from the state extended by the guard definition.
    The header's lines define no macro but the guard, undefine nothing,
    include nothing but [u_runner.h] and carry no tokens. *)
Theorem header_only_effect (env : file_env) (d : nat) (st : pp_state) :
  env header_path = Some u_cfg_app_platform_specific_h ->
  pp_file env (S d) header_path st =
    (if defined header_guard st then Ok st
     else pp_file env d u_runner_h
            (mkState (header_guard :: macros st)
               (out st ++ [(header_path, EDefine header_guard);
                           (header_path, EInclude u_runner_h)])%list)) /\
  (forall l, In l u_cfg_app_platform_specific_h ->
     match l with
     | LDefine m => m = header_guard
     | LInclude f => f = u_runner_h
     | LUndef _ | LText _ => False
     | _ => True
     end).
Proof.
  intros Henv; split.
  - rewrite pp_header_eq by exact Henv.
    destruct (defined header_guard st); [reflexivity|].
    unfold after_guard, emit, define; cbn [macros out].
    now rewrite <- app_assoc.
  - intros l Hl; unfold u_cfg_app_platform_specific_h in Hl.
    destruct Hl as [<-|[<-|[<-|[<-|[]]]]]; reflexivity.
Qed.

Lemma header_only_effect_witness :
  pp_file (env_of (tu_files [] [LText "int x;"])) 3 header_path empty_state =
    Ok (mkState [header_guard]
          [(header_path, EDefine header_guard);
           (header_path, EInclude u_runner_h);
           (u_runner_h, EText "int x;")]) /\
  pp_file (env_of (tu_files [] [LText "int x;"])) 3 header_path empty_state =
    pp_file (env_of (tu_files [] [LText "int x;"])) 2 u_runner_h
      (mkState [header_guard]
         [(header_path, EDefine header_guard);
          (header_path, EInclude u_runner_h)]).
Proof.
  split; [vm_compute; reflexivity|].
  apply (header_only_effect (env_of (tu_files [] [LText "int x;"])) 2
           empty_state).
  reflexivity.
Defined.

(** ** C3: the header makes [u_runner.h] available *)

(** C3, as stated, fails: when the including file defines the guard itself
    before including the header, no header content has been emitted, yet the
    inclusion expands to nothing and [u_runner.h] is not brought in. *)
Lemma header_skipped_after_includer_define :
  match preprocess (env_of (tu_files
          [LDefine header_guard; LInclude header_path] [LText "int x;"]))
          main_c with
  | Ok st => header_content (out st) = [] /\
             out st = [(main_c, EDefine header_guard);
                       (main_c, EInclude header_path)]
  | Err _ => False
  end.
Proof. vm_compute. split; reflexivity. Qed.

(** C3 (amended). At an inclusion of the header where the guard is not
    defined, preprocessing the header succeeds with a state exactly when
    [u_runner.h] is processed successfully from the state with the guard
    defined; the output is then the prior output, the header's guard
    definition and include, followed by the whole expansion of
    [u_runner.h]. *)
Theorem header_makes_u_runner_available (env : file_env) (d : nat)
    (st st' : pp_state) :
  env header_path = Some u_cfg_app_platform_specific_h ->
  defined header_guard st = false ->
  pp_file env (S d) header_path st = Ok st' <->
  exists su,
    pp_file env d u_runner_h (mkState (header_guard :: macros st) []) = Ok su /\
    st' = mkState (macros su) (out st ++ header_events ++ out su)%list.
Proof.
  intros Henv Hdef.
  rewrite pp_header_eq, Hdef by exact Henv.
  assert (E : after_guard st =
              prefix (out st ++ header_events)
                     (mkState (header_guard :: macros st) [])).
  { unfold after_guard, emit, define, prefix; cbn [macros out].
    now rewrite app_nil_r, <- app_assoc. }
  rewrite E, pp_file_prefix.
  destruct (pp_file env d u_runner_h _) as [su|e]; cbn [shift].
  - split.
    + intros H; injection H as <-. exists su; split; [reflexivity|].
      unfold prefix; now rewrite <- app_assoc.
    + intros [su' [H ->]]; injection H as <-.
      unfold prefix; now rewrite <- app_assoc.
  - split; [discriminate | intros [su [H _]]; discriminate].
Qed.

Lemma header_makes_u_runner_available_witness :
  defined header_guard empty_state = false /\
  (pp_file (env_of (tu_files [] [LText "int x;"])) 3 header_path empty_state =
     Ok (mkState [header_guard]
          [(header_path, EDefine header_guard);
           (header_path, EInclude u_runner_h);
           (u_runner_h, EText "int x;")]) <->
   exists su,
     pp_file (env_of (tu_files [] [LText "int x;"])) 2 u_runner_h
       (mkState [header_guard] []) = Ok su /\
     mkState [header_guard]
          [(header_path, EDefine header_guard);
           (header_path, EInclude u_runner_h);
           (u_runner_h, EText "int x;")] =
       mkState (macros su) (out empty_state ++ header_events ++ out su)%list).
Proof.
  split; [reflexivity|].
  apply (header_makes_u_runner_available (env_of (tu_files [] [LText "int x;"]))
           2 empty_state); reflexivity.
Defined.

(** ** C5: the header's path and guard symbol *)

(** C5. The header lives in the source tree under
    [port/platform/nordic/nrf53/cfg/u_cfg_app_platform_specific.h]; the only
    macro its lines test or define is [_U_CFG_APP_PLATFORM_SPECIFIC_H_]; and
    including it expands to nothing exactly when that macro is defined. *)
Theorem header_interface_identity :
  src_tree "port/platform/nordic/nrf53/cfg/u_cfg_app_platform_specific.h" =
    Some u_cfg_app_platform_specific_h /\
  (forall m, In (LIfndef m) u_cfg_app_platform_specific_h \/
             In (LIfdef m) u_cfg_app_platform_specific_h \/
             In (LDefine m) u_cfg_app_platform_specific_h ->
     m = "_U_CFG_APP_PLATFORM_SPECIFIC_H_") /\
  (forall env d st,
     env header_path = Some u_cfg_app_platform_specific_h ->
     pp_file env (S d) header_path st = Ok st <->
     defined "_U_CFG_APP_PLATFORM_SPECIFIC_H_" st = true).
Proof.
  split; [reflexivity|]. split.
  - intros m Hm; unfold u_cfg_app_platform_specific_h in Hm; cbn [In] in Hm.
    destruct Hm as [Hm|[Hm|Hm]]; repeat destruct Hm as [Hm|Hm];
      try discriminate; try contradiction; injection Hm as <-; reflexivity.
  - intros env d st Henv.
    change "_U_CFG_APP_PLATFORM_SPECIFIC_H_" with header_guard.
    rewrite pp_header_eq by exact Henv.
    destruct (defined header_guard st) eqn:Hdef; [split; reflexivity|].
    split; [|discriminate]. intros H.
    apply pp_file_out_grows in H as [o Ho].
    unfold after_guard, emit, define in Ho; cbn [out] in Ho.
    apply (f_equal (@length _)) in Ho.
    rewrite !length_app in Ho; cbn [length] in Ho. lia.
Qed.

Lemma header_interface_identity_witness :
  pp_file (env_of (tu_files [] [])) 3 header_path
    (mkState [header_guard] []) = Ok (mkState [header_guard] []).
Proof.
  apply (proj2 (proj2 header_interface_identity) (env_of (tu_files [] [])) 2
           (mkState [header_guard] [])); reflexivity.
Defined.

(** ** C8: the expansion is deterministic *)

(** C8. What preprocessing the header emits depends only on the macros
    defined before and on how [u_runner.h] expands: for two runs whose prior
    macro sets are equal and in which [u_runner.h] expands identically from
    every state, the newly emitted output (or the error) is identical,
    whatever was emitted before and whatever the rest of the environments. *)
Theorem header_expansion_deterministic (env1 env2 : file_env) (d1 d2 : nat)
    (st1 st2 : pp_state) :
  env1 header_path = Some u_cfg_app_platform_specific_h ->
  env2 header_path = Some u_cfg_app_platform_specific_h ->
  (forall s, pp_file env1 d1 u_runner_h s = pp_file env2 d2 u_runner_h s) ->
  macros st1 = macros st2 ->
  new_output st1 (pp_file env1 (S d1) header_path st1) =
  new_output st2 (pp_file env2 (S d2) header_path st2).
Proof.
  intros H1 H2 Hu Hm.
  rewrite (pp_header_eq env1) by exact H1.
  rewrite (pp_header_eq env2) by exact H2.
  rewrite (defined_macros header_guard st1 st2 Hm).
  destruct (defined header_guard st2).
  - unfold new_output. rewrite !skipn_all. reflexivity.
  - rewrite (after_guard_prefix st1), (after_guard_prefix st2).
    rewrite !pp_file_prefix, !new_output_shift, Hm, Hu. reflexivity.
Qed.

Lemma header_expansion_deterministic_witness :
  new_output (mkState [] [(main_c, EText "a")])
    (pp_file (env_of (tu_files [] [LText "int x;"])) 3 header_path
       (mkState [] [(main_c, EText "a")])) =
  new_output empty_state
    (pp_file (env_of [(header_path, u_cfg_app_platform_specific_h);
                      (u_runner_h, [LText "int x;"]); ("other.h", [])])
       5 header_path empty_state).
Proof.
  apply header_expansion_deterministic; try reflexivity.
Defined.

(** ** C1: include-guard idempotence *)

(** C1, as stated, fails: a translation unit that undefines the guard
    between two inclusions of the header gets the header's content twice. *)
Lemma header_twice_after_undef :
  match preprocess (env_of (tu_files
          [LInclude header_path; LUndef header_guard; LInclude header_path] []))
          main_c with
  | Ok st => header_content (out st) = (header_events ++ header_events)%list
  | Err _ => False
  end.
Proof. vm_compute. reflexivity. Qed.

(** C1 (amended). When no file of the translation unit other than the header
    defines or undefines the guard, a successfully preprocessed translation
    unit contains the header's content (its guard definition and its include
    of [u_runner.h]) exactly once if it includes the header at least once,
    and not at all otherwise: every inclusion after the first expands to
    nothing. *)
Theorem header_content_emitted_once (env : file_env) (main : string)
    (st' : pp_state) :
  env header_path = Some u_cfg_app_platform_specific_h ->
  (forall f ls, f <> header_path -> env f = Some ls -> guard_free ls) ->
  main <> header_path ->
  preprocess env main = Ok st' ->
  header_content (out st') =
    if header_included (out st') then header_events else [].
Proof.
  intros Hh Ho Hm Hrun.
  destruct (pp_file_once_inv env Hh Ho max_include_depth) as [Hf _].
  assert (Hi : once_inv st').
  { eapply Hf; [exact Hm | | exact Hrun].
    right; repeat split. }
  destruct Hi as [[_ [Hc ->]] | [_ [Hc ->]]]; exact Hc.
Qed.

Lemma header_content_emitted_once_witness :
  exists st',
    preprocess (env_of (tu_files
      [LInclude header_path; LText "int main;"; LInclude header_path;
       LInclude header_path] [LText "int x;"])) main_c = Ok st' /\
    header_content (out st') =
      if header_included (out st') then header_events else [].
Proof.
  eexists; split; [vm_compute; reflexivity|].
  apply (header_content_emitted_once
    (env_of (tu_files
      [LInclude header_path; LText "int main;"; LInclude header_path;
       LInclude header_path] [LText "int x;"])) main_c).
  - reflexivity.
  - apply env_guard_free_spec; vm_compute; reflexivity.
  - discriminate.
  - vm_compute; reflexivity.
Defined.

(** ** C2: when preprocessing the header fails *)

(** C2, as stated, fails both ways: with [u_runner.h] present, the header
    still fails when [u_runner.h] includes a file that cannot be located; with
    [u_runner.h] absent, the header succeeds when the guard is already
    defined, since the [#include] is then skipped. *)
Lemma header_outcome_not_u_runner_presence :
  pp_file (env_of (tu_files [] [LInclude "u_port.h"])) max_include_depth
    header_path empty_state = Err (ENotFound "u_port.h") /\
  env_of [(header_path, u_cfg_app_platform_specific_h)] u_runner_h = None /\
  pp_file (env_of [(header_path, u_cfg_app_platform_specific_h)])
    max_include_depth header_path (mkState [header_guard] []) =
    Ok (mkState [header_guard] []).
Proof. vm_compute. repeat split. Qed.

(** C2 (amended). If the guard is already defined, preprocessing the header
    succeeds, leaves the state unchanged and does not consult [u_runner.h].
    If it is not, the header fails with a not-found error for [u_runner.h]
    when [u_runner.h] cannot be located (and the include depth allows
    opening it), and otherwise the header succeeds exactly when [u_runner.h]
    is processed successfully and fails with exactly the error of
    [u_runner.h]: the header's own lines add no failure of their own. *)
Theorem header_failure_modes (env : file_env) (d : nat) (st : pp_state) :
  env header_path = Some u_cfg_app_platform_specific_h ->
  (defined header_guard st = true -> pp_file env (S d) header_path st = Ok st) /\
  (defined header_guard st = false -> env u_runner_h = None ->
     pp_file env (S (S d)) header_path st = Err (ENotFound u_runner_h)) /\
  (defined header_guard st = false ->
     (forall e, pp_file env (S d) header_path st = Err e <->
                pp_file env d u_runner_h (after_guard st) = Err e) /\
     ((exists st', pp_file env (S d) header_path st = Ok st') <->
      (exists st', pp_file env d u_runner_h (after_guard st) = Ok st'))).
Proof.
  intros Henv; split; [|split].
  - intros Hd; rewrite pp_header_eq, Hd by exact Henv; reflexivity.
  - intros Hd Hu; rewrite pp_header_eq, Hd by exact Henv.
    simpl; rewrite Hu; reflexivity.
  - intros Hd; rewrite pp_header_eq, Hd by exact Henv.
    split; [intros; reflexivity | reflexivity].
Qed.

Lemma header_failure_modes_witness :
  pp_file (env_of [(header_path, u_cfg_app_platform_specific_h)]) 3
    header_path empty_state = Err (ENotFound u_runner_h).
Proof.
  apply (header_failure_modes (env_of [(header_path, u_cfg_app_platform_specific_h)])
           1 empty_state); reflexivity.
Defined.

(** ** C6: circular inclusion *)

(** C6, as stated, fails: when [u_runner.h] undefines the guard before
    including the header again, the re-entrant inclusion is not empty and
    the cycle recurses until the include depth limit is exceeded. *)
Lemma header_cycle_after_undef_too_deep :
  exists f, preprocess (env_of (tu_files [LInclude header_path]
                          [LUndef header_guard; LInclude header_path]))
              main_c = Err (ETooDeep f).
Proof. eexists. vm_compute. reflexivity. Qed.

(** C6 (amended). The guard is defined before [u_runner.h] is processed, so
    provided no file other than the header undefines the guard, every
    re-entrant inclusion of the header during the processing of
    [u_runner.h] expands to nothing: the header's result is the result of
    processing [u_runner.h] in the environment where the header is an empty
    file, so a cycle through the header does not recurse. *)
Theorem reentrant_header_expands_to_nothing (env : file_env) (d : nat)
    (st : pp_state) :
  env header_path = Some u_cfg_app_platform_specific_h ->
  (forall f ls, f <> header_path -> env f = Some ls ->
     no_undef header_guard ls) ->
  defined header_guard st = false ->
  pp_file env (S d) header_path st =
  pp_file (without_header env) d u_runner_h (after_guard st).
Proof.
  intros Hh Hno Hd.
  rewrite pp_header_eq, Hd by exact Hh.
  apply pp_file_without_header; [exact Hh | exact Hno | apply defined_after_guard].
Qed.

(** [u_runner.h] including the header back: the cycle ends. *)
Lemma reentrant_header_expands_to_nothing_witness :
  pp_file (env_of (tu_files [] [LInclude header_path])) max_include_depth
    header_path empty_state =
  pp_file (without_header (env_of (tu_files [] [LInclude header_path])))
    (pred max_include_depth) u_runner_h (after_guard empty_state) /\
  pp_file (env_of (tu_files [] [LInclude header_path])) max_include_depth
    header_path empty_state =
  Ok (mkState [header_guard]
        [(header_path, EDefine header_guard);
         (header_path, EInclude u_runner_h);
         (u_runner_h, EInclude header_path)]).
Proof.
  split; [|vm_compute; reflexivity].
  apply (reentrant_header_expands_to_nothing
           (env_of (tu_files [] [LInclude header_path])) (pred max_include_depth)
           empty_state).
  - reflexivity.
  - apply env_no_undef_spec; vm_compute; reflexivity.
  - reflexivity.
Defined.

(** ** C7: persistence of the guard *)

(** C7, as stated, fails: the guard does not remain defined for the rest of
    the translation unit when the including file undefines it. *)
Lemma guard_undefined_by_includer :
  match preprocess (env_of (tu_files
          [LInclude header_path; LUndef header_guard; LText "int y;"] []))
          main_c with
  | Ok st => defined header_guard st = false
  | Err _ => False
  end.
Proof. vm_compute. reflexivity. Qed.

(** C7 (amended). The header contains no [#undef]; preprocessing the header
    preserves "guard defined implies the header's content (its guard
    definition followed by its include of [u_runner.h]) has been emitted";
    and, provided no file other than the header undefines the guard, once
    the header has defined it the guard stays defined for the rest of the
    translation unit: at every point of a successful run's output after the
    header's guard definition, the macros set by the output so far contain
    the guard, these replayed macros being the run's final macro set. *)
Theorem guard_persistence :
  (forall m, ~ In (LUndef m) u_cfg_app_platform_specific_h) /\
  (forall env d st st',
     env header_path = Some u_cfg_app_platform_specific_h ->
     (defined header_guard st = true ->
        exists a b, out st = (a ++ header_events ++ b)%list) ->
     pp_file env d header_path st = Ok st' ->
     defined header_guard st' = true ->
     exists a b, out st' = (a ++ header_events ++ b)%list) /\
  (forall env main st',
     env header_path = Some u_cfg_app_platform_specific_h ->
     (forall f ls, f <> header_path -> env f = Some ls ->
        no_undef header_guard ls) ->
     preprocess env main = Ok st' ->
     macros st' = replay (out st') /\
     (forall o1 o2, out st' = (o1 ++ o2)%list ->
        In (header_path, EDefine header_guard) o1 ->
        existsb (String.eqb header_guard) (replay o1) = true)).
Proof.
  split; [|split].
  - intros m; apply header_no_undef.
  - intros env [|d] st st' Hh Hinv Hrun Hd; [discriminate|].
    rewrite pp_header_eq in Hrun by exact Hh.
    destruct (defined header_guard st) eqn:Hd0.
    + injection Hrun as <-. apply Hinv; reflexivity.
    + apply pp_file_out_grows in Hrun as [o ->].
      exists (out st), o.
      unfold after_guard, emit, define; cbn [out].
      now rewrite <- !app_assoc.
  - intros env main st' Hh Hno Hrun.
    assert (Hall : forall f ls, env f = Some ls -> no_undef header_guard ls).
    { intros f ls Ef. destruct (String.eqb_spec f header_path) as [->|Hne].
      - rewrite Hh in Ef; injection Ef as <-; apply header_no_undef.
      - eapply Hno; eassumption. }
    split.
    + eapply (pp_file_replay env max_include_depth main empty_state);
        [reflexivity | exact Hrun].
    + intros o1 o2 Ho Hin.
      assert (Hu : no_guard_undef_event (out st')).
      { eapply (pp_file_no_guard_undef env Hall max_include_depth main empty_state);
          [intros c [] | exact Hrun]. }
      apply replay_after_define; [|exact Hin].
      intros c Hc; apply (Hu c); rewrite Ho; apply in_or_app; now left.
Qed.

Lemma guard_persistence_witness :
  exists st',
    preprocess (env_of (tu_files
      [LInclude header_path; LText "int y;"; LInclude header_path]
      [LText "int x;"])) main_c = Ok st' /\
    macros st' = replay (out st') /\
    (forall o1 o2, out st' = (o1 ++ o2)%list ->
       In (header_path, EDefine header_guard) o1 ->
       existsb (String.eqb header_guard) (replay o1) = true).
Proof.
  eexists; split; [vm_compute; reflexivity|].
  apply (proj2 (proj2 guard_persistence)
           (env_of (tu_files
              [LInclude header_path; LText "int y;"; LInclude header_path]
              [LText "int x;"])) main_c).
  - reflexivity.
  - apply env_no_undef_spec; vm_compute; reflexivity.
  - vm_compute; reflexivity.
Defined.

(** * Further properties of the header *)

(** The header's [#ifndef]/[#endif] are well nested, so no preprocessing run
    in an environment that resolves the header to its source ever fails with
    an unterminated-conditional or unbalanced-[#endif] error naming the
    header. *)
Theorem header_never_blamed_for_conditionals (env : file_env) (d : nat)
    (f : string) (st : pp_state) (e : pp_error) :
  env header_path = Some u_cfg_app_platform_specific_h ->
  pp_file env d f st = Err e ->
  e <> EUnterminated header_path /\ e <> EUnbalancedEndif header_path /\
  (forall g, e = EUnterminated g \/ e = EUnbalancedEndif g ->
     g <> header_path /\ exists ls, env g = Some ls /\ nest_ok 0 ls = false).
Proof.
  intros Hh H.
  assert (Hg : forall g, e = EUnterminated g \/ e = EUnbalancedEndif g ->
     g <> header_path /\ exists ls, env g = Some ls /\ nest_ok 0 ls = false).
  { intros g Hc.
    destruct (pp_file_cond_error env d f st g e H Hc) as [ls [E Hn]].
    split; [|exists ls; split; assumption].
    intros ->. rewrite Hh in E; injection E as <-; discriminate. }
  split; [|split; [|exact Hg]]; intros ->;
    [ apply (proj1 (Hg header_path (or_introl eq_refl)))
    | apply (proj1 (Hg header_path (or_intror eq_refl))) ]; reflexivity.
Qed.

Lemma header_never_blamed_for_conditionals_witness :
  pp_file (env_of (tu_files [LInclude header_path] [LIfndef "X"])) 10 main_c
    empty_state = Err (EUnterminated u_runner_h) /\
  EUnterminated u_runner_h <> EUnterminated header_path /\
  EUnterminated u_runner_h <> EUnbalancedEndif header_path /\
  (forall g, EUnterminated u_runner_h = EUnterminated g \/
             EUnterminated u_runner_h = EUnbalancedEndif g ->
     g <> header_path /\
     exists ls, env_of (tu_files [LInclude header_path] [LIfndef "X"]) g = Some ls /\
                nest_ok 0 ls = false).
Proof.
  split; [vm_compute; reflexivity|].
  apply (header_never_blamed_for_conditionals
           (env_of (tu_files [LInclude header_path] [LIfndef "X"])) 10 main_c
           empty_state); [reflexivity | vm_compute; reflexivity].
Defined.

(** Including the header a second time right after a successful inclusion
    changes nothing, at any depth, provided no file other than the header
    undefines the guard. *)
Theorem header_inclusion_idempotent (env : file_env) (d d' : nat)
    (st st' : pp_state) :
  env header_path = Some u_cfg_app_platform_specific_h ->
  (forall f ls, f <> header_path -> env f = Some ls ->
     no_undef header_guard ls) ->
  pp_file env (S d) header_path st = Ok st' ->
  pp_file env (S d') header_path st' = Ok st'.
Proof.
  intros Hh Hno H.
  assert (Hall : forall f ls, env f = Some ls -> no_undef header_guard ls).
  { intros f ls Ef. destruct (String.eqb_spec f header_path) as [->|Hne].
    - rewrite Hh in Ef; injection Ef as <-; apply header_no_undef.
    - eapply Hno; eassumption. }
  assert (Hd : defined header_guard st' = true).
  { rewrite pp_header_eq in H by exact Hh.
    destruct (defined header_guard st) eqn:E0.
    - injection H as <-; exact E0.
    - eapply pp_file_keeps_defined; [exact Hall | apply defined_after_guard | exact H]. }
  rewrite pp_header_eq, Hd by exact Hh; reflexivity.
Qed.

Lemma header_inclusion_idempotent_witness :
  pp_file (env_of (tu_files [] [LText "int x;"; LInclude header_path])) 1
    header_path
    (mkState [header_guard]
       [(header_path, EDefine header_guard); (header_path, EInclude u_runner_h);
        (u_runner_h, EText "int x;"); (u_runner_h, EInclude header_path)]) =
  Ok (mkState [header_guard]
       [(header_path, EDefine header_guard); (header_path, EInclude u_runner_h);
        (u_runner_h, EText "int x;"); (u_runner_h, EInclude header_path)]).
Proof.
  apply (header_inclusion_idempotent
           (env_of (tu_files [] [LText "int x;"; LInclude header_path])) 3 0
           empty_state).
  - reflexivity.
  - apply env_no_undef_spec; vm_compute; reflexivity.
  - vm_compute; reflexivity.
Defined.
